(** * The containers of [generics.ts]: [ensureHasLength], [Stack], [LinkedList]

    A shallow embedding of the runtime part of [src/generics.ts] (the same
    classes appear, compiled, in [src/decorators.ts]) and the proofs of the
    properties the specification states about them.

    Conventions of the embedding.
    - A value of type [T | undefined] is an [option T]; [None] is [undefined].
    - A JavaScript [number] used as an index or as a length is an integer,
      modelled as [Z]; the counter [_size] is a [Z] as well. Where a call
      with the index [NaN] is examined, the index is a [Number.t].
    - A method that mutates [this] is a function from the old object to the
      new one; a method that also returns a value returns a pair.
    - A call that may throw returns a [completion]: [Return v] or [Throw e].
    - The nodes of a list are private to it, so no node is shared between
      two lists: the assignment [cur.next = node] at the end of a walk is the
      rebuilding of the chain along the walked path. *)

From Stdlib Require Import ZArith String.
From stdpp Require Import base list gmap strings.

Local Open Scope Z_scope.

(** ** Exceptions and completions *)

(** The exceptions the code can raise: [new Error(msg)], [new RangeError(msg)]
    and the [TypeError] the runtime raises when a property of [undefined] is
    read. *)
Inductive exn : Type :=
  | Error (msg : string)
  | RangeError (msg : string)
  | TypeError.

Inductive completion (A : Type) : Type :=
  | Return (a : A)
  | Throw (e : exn).

Arguments Return {A} a.
Arguments Throw {A} e.

#[global] Instance completion_ret : MRet completion := fun _ a => Return a.

#[global] Instance completion_bind : MBind completion := fun _ _ k c =>
  match c with
  | Return a => k a
  | Throw e => Throw e
  end.

#[global] Instance completion_fmap : FMap completion := fun _ _ f c =>
  match c with
  | Return a => Return (f a)
  | Throw e => Throw e
  end.

(** ** JavaScript arrays *)

Module Array.

(** [arr[i]]: the element at an integer index, [undefined] outside the
    array (a negative index included). *)
Definition get {T : Type} (arr : list T) (i : Z) : option T :=
  if i <? 0 then None else arr !! Z.to_nat i.

(** [arr.length] *)
Definition length {T : Type} (arr : list T) : Z := Z.of_nat (List.length arr).

(** [arr.push(item)] *)
Definition push {T : Type} (item : T) (arr : list T) : list T := arr ++ [item].

(** [arr.pop()]: removes the last element and returns it; on an empty
    array returns [undefined] and leaves it empty. *)
Definition pop {T : Type} (arr : list T) : option T * list T :=
  (last arr, removelast arr).

End Array.

(** ** JavaScript numbers passed as an index *)

Module Number.

(** A [number]: an integer or [NaN]. *)
Inductive t : Type :=
  | Int (z : Z)
  | NaN.

(** [a < b], [a >= b] and [a === b] for an integer [b]: a comparison with
    [NaN] is false, whichever it is. *)
Definition ltb (a : t) (b : Z) : bool :=
  match a with
  | Int z => z <? b
  | NaN => false
  end.

Definition geb (a : t) (b : Z) : bool :=
  match a with
  | Int z => z >=? b
  | NaN => false
  end.

Definition eqb (a : t) (b : Z) : bool :=
  match a with
  | Int z => z =? b
  | NaN => false
  end.

(** The number of rounds of [for (let i = 0; i < index - 1; i++)]:
    [index - 1] for an integer; none for [NaN], [0 < NaN - 1] being false. *)
Definition rounds (index : t) : nat :=
  match index with
  | Int z => Z.to_nat (z - 1)
  | NaN => 0%nat
  end.

End Number.

(** ** 2) Generic with a constraint: [HasLength] and [ensureHasLength] *)

Module Constraint.

(** [interface HasLength { length: number }] *)
Class HasLength (T : Type) : Type := { length : T → Z }.

#[global] Instance array_HasLength {A : Type} : HasLength (list A) :=
  {| length := Array.length |}.

#[global] Instance string_HasLength : HasLength string :=
  {| length := fun s => Z.of_nat (String.length s) |}.

(** [function ensureHasLength<T extends HasLength>(arg: T): T] *)
Definition ensureHasLength {T : Type} `{HasLength T} (arg : T) : completion T :=
  if length arg =? 0 then Throw (Error "Empty") else Return arg.

End Constraint.

(** ** 4) Generic class [Stack] *)

Module Stack.

(** [class Stack<T> { private items: T[] = []; ... }] *)
Record t (T : Type) : Type := mk { items : list T }.
Arguments mk {T} items.
Arguments items {T} _.

(** [new Stack<T>()] *)
Definition new {T : Type} : t T := mk [].

(** [push(item: T) { this.items.push(item); }] *)
Definition push {T : Type} (item : T) (s : t T) : t T :=
  mk (Array.push item (items s)).

(** [pop(): T | undefined { return this.items.pop(); }] *)
Definition pop {T : Type} (s : t T) : option T * t T :=
  let '(r, items') := Array.pop (items s) in (r, mk items').

(** [peek(): T | undefined { return this.items[this.items.length - 1]; }] *)
Definition peek {T : Type} (s : t T) : option T :=
  Array.get (items s) (Array.length (items s) - 1).

(** [push(x1); ...; push(xn)]: the calls a caller makes in order. *)
Definition push_all {T : Type} (xs : list T) (s : t T) : t T :=
  fold_left (fun s' x => push x s') xs s.

(** [k] calls of [pop()] in a row: the values returned, in the order of
    the calls, and the stack afterwards. *)
Fixpoint pop_times {T : Type} (k : nat) (s : t T) : list (option T) * t T :=
  match k with
  | O => ([], s)
  | S k' =>
      let '(r, s') := pop s in
      let '(rs, s'') := pop_times k' s' in
      (r :: rs, s'')
  end.

End Stack.

(** ** Generic singly-linked list *)

Module LinkedListNode.

(** [class LinkedListNode<T> { constructor(public value: T,
    public next?: LinkedListNode<T>) {} }] *)
#[warnings="-register-all"]
Inductive t (T : Type) : Type :=
  mk { value : T; next : option (t T) }.
Arguments mk {T} value next.
Arguments value {T} _.
Arguments next {T} _.

End LinkedListNode.

Module LinkedList.

Abbreviation node := LinkedListNode.t.
Abbreviation Node := LinkedListNode.mk.

(** [class LinkedList<T> { private head?: LinkedListNode<T>;
    private _size = 0; ... }] *)
Record t (T : Type) : Type := mk { head : option (node T); _size : Z }.
Arguments mk {T} head _size.
Arguments head {T} _.
Arguments _size {T} _.

Section Methods.
Context {T : Type}.

(** [new LinkedList<T>()] *)
Definition new : t T := mk None 0.

(** The loop of [add], entered with [cur = this.head]:
    [while (cur.next) cur = cur.next; cur.next = node]. *)
Fixpoint add_loop (cur : node T) (n : node T) : node T :=
  match LinkedListNode.next cur with
  | None => Node (LinkedListNode.value cur) (Some n)
  | Some nx => Node (LinkedListNode.value cur) (Some (add_loop nx n))
  end.

(** [add(value: T)] *)
Definition add (value : T) (l : t T) : t T :=
  let n := Node value None in
  let head' :=
    match head l with
    | None => n
    | Some cur => add_loop cur n
    end in
  mk (Some head') (_size l + 1).

(** [static fromArray<T>(arr: T[])]: [for (const v of arr) l.add(v)]. *)
Definition fromArray (arr : list T) : t T :=
  fold_left (fun l v => add v l) arr new.

(** The [else] branch of [insertAt], entered with [cur = this.head!] and
    [steps] iterations of [cur = cur.next!] to go, then
    [node.next = cur.next; cur.next = node]. Reading [cur.next] when [cur]
    is [undefined] is a [TypeError]. The result is the chain from the
    initial [cur]. *)
Fixpoint insert_walk (steps : nat) (cur : option (node T)) (value : T)
  : completion (node T) :=
  match cur with
  | None => Throw TypeError
  | Some c =>
      match steps with
      | O =>
          Return (Node (LinkedListNode.value c)
                       (Some (Node value (LinkedListNode.next c))))
      | S k =>
          rest ← insert_walk k (LinkedListNode.next c) value;
          Return (Node (LinkedListNode.value c) (Some rest))
      end
  end.

(** [insertAt(index: number, value: T)]: how the call completes and the
    list afterwards. The loop [for (let i = 0; i < index - 1; i++)] runs
    [index - 1] times. Both throws happen before the first assignment to a
    field, so they leave the list as it was. *)
Definition insertAt (index : Z) (value : T) (l : t T)
  : completion unit * t T :=
  if (index <? 0) || (index >? _size l)
  then (Throw (RangeError "index out of bounds"), l)
  else if index =? 0
  then (Return (), mk (Some (Node value (head l))) (_size l + 1))
  else
    match insert_walk (Z.to_nat (index - 1)) (head l) value with
    | Throw e => (Throw e, l)
    | Return h => (Return (), mk (Some h) (_size l + 1))
    end.

(** The [else] branch of [removeAt], entered with [cur = this.head!]:
    after the walk, [removed = cur.next; cur.next = cur.next?.next]. The
    result is [removed] and the chain from the initial [cur]. *)
Fixpoint remove_walk (steps : nat) (cur : option (node T))
  : completion (option (node T) * node T) :=
  match cur with
  | None => Throw TypeError
  | Some c =>
      match steps with
      | O =>
          let removed := LinkedListNode.next c in
          Return (removed,
                  Node (LinkedListNode.value c)
                       (removed ≫= LinkedListNode.next))
      | S k =>
          '(removed, rest) ← remove_walk k (LinkedListNode.next c);
          Return (removed, Node (LinkedListNode.value c) (Some rest))
      end
  end.

(** The unlinking step of [removeAt] for an index that passed the range
    test: [removed] and the new [head]. *)
Definition unlink (index : Z) (l : t T)
  : completion (option (node T) * option (node T)) :=
  if index =? 0
  then Return (head l, head l ≫= LinkedListNode.next)
  else
    '(removed, h) ← remove_walk (Z.to_nat (index - 1)) (head l);
    Return (removed, Some h).

(** [removeAt(index: number): T | undefined]: how the call completes (with
    the returned value) and the list afterwards. *)
Definition removeAt (index : Z) (l : t T)
  : completion (option T) * t T :=
  if (index <? 0) || (index >=? _size l)
  then (Return None, l)
  else
    match unlink index l with
    | Throw e => (Throw e, l)
    | Return (removed, head') =>
        let size' :=
          match removed with
          | Some _ => _size l - 1
          | None => _size l
          end in
        (Return (LinkedListNode.value <$> removed), mk head' size')
    end.

(** [removeAt(index: number)] for any [number], [NaN] included: the
    statements of [removeAt], the tests and the loop bound being those of
    JavaScript numbers. *)
Definition unlink_number (index : Number.t) (l : t T)
  : completion (option (node T) * option (node T)) :=
  if Number.eqb index 0
  then Return (head l, head l ≫= LinkedListNode.next)
  else
    '(removed, h) ← remove_walk (Number.rounds index) (head l);
    Return (removed, Some h).

Definition removeAt_number (index : Number.t) (l : t T)
  : completion (option T) * t T :=
  if Number.ltb index 0 || Number.geb index (_size l)
  then (Return None, l)
  else
    match unlink_number index l with
    | Throw e => (Throw e, l)
    | Return (removed, head') =>
        let size' :=
          match removed with
          | Some _ => _size l - 1
          | None => _size l
          end in
        (Return (LinkedListNode.value <$> removed), mk head' size')
    end.

(** The loop of [find]: [while (cur) { if (predicate(cur.value)) return
    cur.value; cur = cur.next; }], entered with a defined [cur]. *)
Fixpoint find_loop (predicate : T → bool) (cur : node T) : option T :=
  if predicate (LinkedListNode.value cur)
  then Some (LinkedListNode.value cur)
  else
    match LinkedListNode.next cur with
    | None => None
    | Some nx => find_loop predicate nx
    end.

(** [find(predicate: (v: T) => boolean): T | undefined] *)
Definition find (predicate : T → bool) (l : t T) : option T :=
  match head l with
  | None => None
  | Some cur => find_loop predicate cur
  end.

(** The loop of [toArray]: [while (cur) { out.push(cur.value);
    cur = cur.next; }], entered with a defined [cur]. *)
Fixpoint toArray_loop (cur : node T) (out : list T) : list T :=
  let out' := Array.push (LinkedListNode.value cur) out in
  match LinkedListNode.next cur with
  | None => out'
  | Some nx => toArray_loop nx out'
  end.

(** [toArray(): T[]] *)
Definition toArray (l : t T) : list T :=
  match head l with
  | None => []
  | Some cur => toArray_loop cur []
  end.

(** [size()] *)
Definition size (l : t T) : Z := _size l.

(** [clear()] *)
Definition clear (l : t T) : t T := mk None 0.

(** The loop of [forEach]: [while (cur) { fn(cur.value, i++);
    cur = cur.next; }], entered with a defined [cur]. The callback returns
    nothing: what it does is its effect on the state [S] of its caller; it
    is a callback that neither throws nor touches the list. *)
Fixpoint forEach_loop {S : Type} (fn : T → Z → S → S)
    (cur : node T) (i : Z) (s : S) : S :=
  let s' := fn (LinkedListNode.value cur) i s in
  match LinkedListNode.next cur with
  | None => s'
  | Some nx => forEach_loop fn nx (i + 1) s'
  end.

(** [forEach(fn: (v: T, idx: number) => void)] *)
Definition forEach {S : Type} (fn : T → Z → S → S) (l : t T) (s : S) : S :=
  match head l with
  | None => s
  | Some cur => forEach_loop fn cur 0 s
  end.

(** *** Sequences of calls of the public operations *)

Inductive op : Type :=
  | FromArray (arr : list T)
  | Add (value : T)
  | InsertAt (index : Z) (value : T)
  | RemoveAt (index : Z)
  | Clear.

(** One call on the list held by the caller; the value a call returns is
    dropped. [LinkedList.fromArray] is static: the caller holds its result
    from then on. *)
Definition call (o : op) (l : t T) : completion unit * t T :=
  match o with
  | FromArray arr => (Return (), fromArray arr)
  | Add value => (Return (), add value l)
  | InsertAt index value => insertAt index value l
  | RemoveAt index =>
      let '(r, l') := removeAt index l in ((fun _ => ()) <$> r, l')
  | Clear => (Return (), clear l)
  end.

(** The calls in order; an exception ends the sequence. *)
Fixpoint run (ops : list op) (l : t T) : completion unit * t T :=
  match ops with
  | [] => (Return (), l)
  | o :: ops' =>
      match call o l with
      | (Return _, l') => run ops' l'
      | (Throw e, l') => (Throw e, l')
      end
  end.

(** *** The class invariant *)

(** The counter [_size] is the number of nodes reachable from [head]:
    [size() = toArray().length]. *)
Definition counted (l : t T) : Prop := size l = Array.length (toArray l).

(** *** Chains of nodes: their values and their reasoning principle *)

(** The values met from [cur] to the end of the chain, as [toArray] lists
    them from [this.head]. *)
Definition values (cur : option (node T)) : list T :=
  match cur with
  | None => []
  | Some n => toArray_loop n []
  end.

Fixpoint chain_ind_from (P : option (node T) → Prop)
    (Hend : P None)
    (Hlink : ∀ v nx, P nx → P (Some (Node v nx)))
    (n : node T) : P (Some n) :=
  match n with
  | Node v nx =>
      Hlink v nx
        match nx with
        | None => Hend
        | Some m => chain_ind_from P Hend Hlink m
        end
  end.

Definition chain_ind (P : option (node T) → Prop)
    (Hend : P None)
    (Hlink : ∀ v nx, P nx → P (Some (Node v nx)))
    (o : option (node T)) : P o :=
  match o with
  | None => Hend
  | Some n => chain_ind_from P Hend Hlink n
  end.

End Methods.

Arguments op T : clear implicits.

(** [IteratorResult<T>]: [{ done: false, value: v }] or
    [{ done: true, value: undefined }]. *)
Inductive IteratorResult (T : Type) : Type :=
  | Yield (value : T)
  | Done.
Arguments Yield {T} value.
Arguments Done {T}.

(** The iterator [[Symbol.iterator]()] returns is the closure over its
    variable [cur]: its state is the value of [cur]. *)
Module Iterator.

Section Protocol.
Context {T : Type}.

(** [[Symbol.iterator](): Iterator<T>]: [let cur = this.head]. *)
Definition Symbol_iterator (l : t T) : option (node T) := head l.

(** [next(): IteratorResult<T>]: the result and the new value of [cur]. *)
Definition next (cur : option (node T))
  : IteratorResult T * option (node T) :=
  match cur with
  | None => (Done, cur)
  | Some c => (Yield (LinkedListNode.value c), LinkedListNode.next c)
  end.

(** The value of [cur] after [k] calls of [next()]. *)
Fixpoint after (k : nat) (cur : option (node T)) : option (node T) :=
  match k with
  | O => cur
  | S k' => after k' (next cur).2
  end.

(** [for (const v of it) body(v)]: [next()] is called until it reports
    [done]; [fuel] is the number of calls of [next()] the loop may make,
    [None] is a loop that has not ended within them. This is the loop for a
    body that acts on the state [S] of the code around the loop only: a
    body that neither throws, nor leaves the loop, nor touches the list the
    iterator walks. *)
Fixpoint for_of {S : Type} (fuel : nat) (cur : option (node T))
    (body : T → S → S) (s : S) : option S :=
  match fuel with
  | O => None
  | S fuel' =>
      match next cur with
      | (Done, _) => Some s
      | (Yield v, cur') => for_of fuel' cur' body (body v s)
      end
  end.

End Protocol.

End Iterator.

End LinkedList.

(** ** Generic class [Repository] with two type parameters *)

Module Repository.

(** [interface HasId<ID = number> { id: ID }] *)
Class HasId (ID T : Type) : Type := { id : T → ID }.

Section Methods.
Context {ID T : Type} `{Countable ID} `{HasId ID T}.

(** [class Repository<T extends HasId<ID>, ID extends string | number>
    { private store = new Map<ID, T>(); ... }]. An item is a value: the
    caller does not assign to the fields of an item it has saved. *)
Record t : Type := mk { store : gmap ID T }.

(** [new Repository<T, ID>()] *)
Definition new : t := mk ∅.

(** [save(item: T) { this.store.set(item.id as ID, item); }] *)
Definition save (item : T) (r : t) : t := mk (<[id item := item]> (store r)).

(** [get(id: ID): T | undefined { return this.store.get(id); }] *)
Definition get (i : ID) (r : t) : option T := store r !! i.

(** [save(x1); ...; save(xn)]: the calls a caller makes in order. *)
Definition save_all (items : list T) (r : t) : t :=
  fold_left (fun r' item => save item r') items r.

End Methods.

Arguments t ID T {_ _}.

End Repository.

(** [type UserWithId = { id: string; name: string }], the items of the
    repository [new Repository<UserWithId, string>()]. *)
Record UserWithId : Type := mkUserWithId { user_id : string; name : string }.

#[global] Instance UserWithId_HasId : Repository.HasId string UserWithId :=
  {| Repository.id := user_id |}.

(** ** [Set<T>]: a set that is iterated in insertion order *)

Module JsSet.

Section Methods.
Context {T : Type} `{EqDecision T}.

(** [set.has(x)] *)
Definition has (x : T) (set : list T) : bool := bool_decide (x ∈ set).

(** [set.add(x)]: an element already in the set keeps its place. *)
Definition add (x : T) (set : list T) : list T :=
  if has x set then set else set ++ [x].

(** [set.delete(x)] *)
Definition delete (x : T) (set : list T) : list T :=
  filter (fun y => y ≠ x) set.

End Methods.

End JsSet.

(** ** Typed event emitter *)

Module TypedEventEmitter.

Section Methods.
(** [K] is [keyof Events]; [F] is the references to functions, compared by
    identity as [Set<Function>] does. *)
Context {K F : Type} `{Countable K} `{EqDecision F}.

(** [class TypedEventEmitter<Events> {
    private listeners = new Map<keyof Events, Set<Function>>(); ... }] *)
Record t : Type := mk { listeners : gmap K (list F) }.

(** [new TypedEventEmitter<Events>()] *)
Definition new : t := mk ∅.

(** [on(event, cb)]: [set = this.listeners.get(event) ?? new Set();
    set.add(cb); this.listeners.set(event, set)]. *)
Definition on (event : K) (cb : F) (em : t) : t :=
  let set := default [] (listeners em !! event) in
  mk (<[event := JsSet.add cb set]> (listeners em)).

(** [off(event, cb)]: [set = this.listeners.get(event); set?.delete(cb)];
    the map holds the set the call updates. *)
Definition off (event : K) (cb : F) (em : t) : t :=
  match listeners em !! event with
  | None => em
  | Some set => mk (<[event := JsSet.delete cb set]> (listeners em))
  end.

(** [emit(event, ...args)]: [if (!set) return; for (const cb of set)
    cb(...args)]. [invoke cb args] is what calling [cb] does to the state
    [S] of the program outside the emitter: the listeners neither throw nor
    call the emitter. *)
Definition emit {A S : Type} (invoke : F → A → S → S)
    (event : K) (args : A) (em : t) (s : S) : S :=
  match listeners em !! event with
  | None => s
  | Some set => fold_left (fun s' cb => invoke cb args s') set s
  end.

(** The values of the map are [Set]s: none holds a callback twice. *)
Definition sets_distinct (em : t) : Prop :=
  ∀ event set, listeners em !! event = Some set → NoDup set.

(** [on(event, cb1); ...; on(event, cbn)]: the calls in order. *)
Definition on_all (event : K) (cbs : list F) (em : t) : t :=
  fold_left (fun em' cb => on event cb em') cbs em.

End Methods.

Arguments t K F {_ _}.

End TypedEventEmitter.

(** * Properties *)

(** ** Arrays *)

Lemma Array_pop_push {T : Type} (item : T) (arr : list T) :
  Array.pop (Array.push item arr) = (Some item, arr).
Proof.
  unfold Array.pop, Array.push.
  now rewrite last_snoc, removelast_last.
Qed.

(** ** Chains of nodes *)

Section Chains.
Context {T : Type}.

Implicit Types (cur nx : option (LinkedList.node T)) (n : LinkedList.node T).
Implicit Types (out : list T) (v : T).

Lemma node_ind_last_link (Q : LinkedList.node T → Prop) :
  (∀ v, Q (LinkedList.Node v None)) →
  (∀ v m, Q m → Q (LinkedList.Node v (Some m))) →
  ∀ n, Q n.
Proof.
  intros Hlast Hlink n.
  apply (LinkedList.chain_ind_from
           (λ o, match o with None => True | Some m => Q m end));
    [exact I|].
  intros v [m|] IH; auto.
Qed.

Lemma toArray_loop_out n out :
  LinkedList.toArray_loop n out = out ++ LinkedList.toArray_loop n [].
Proof.
  revert out. induction n as [v|v m IH] using node_ind_last_link; intros out.
  - reflexivity.
  - cbn [LinkedList.toArray_loop LinkedListNode.next LinkedListNode.value].
    rewrite IH, (IH (Array.push v [])). unfold Array.push.
    now rewrite <- app_assoc.
Qed.

Lemma values_link v nx :
  LinkedList.values (Some (LinkedList.Node v nx)) = v :: LinkedList.values nx.
Proof.
  destruct nx as [m|]; [|reflexivity].
  cbn [LinkedList.values LinkedList.toArray_loop LinkedListNode.next
       LinkedListNode.value].
  now rewrite toArray_loop_out.
Qed.

Lemma toArray_values (l : LinkedList.t T) :
  LinkedList.toArray l = LinkedList.values (LinkedList.head l).
Proof. reflexivity. Qed.

Lemma values_add_loop n m :
  LinkedList.values (Some (LinkedList.add_loop n m))
  = LinkedList.values (Some n) ++ LinkedList.values (Some m).
Proof.
  induction n as [v|v n' IH] using node_ind_last_link.
  - cbn [LinkedList.add_loop LinkedListNode.next LinkedListNode.value].
    now rewrite !values_link.
  - cbn [LinkedList.add_loop LinkedListNode.next LinkedListNode.value].
    now rewrite !values_link, IH.
Qed.

(** Two chains with the same values are the same chain. *)
Lemma values_inj cur nx :
  LinkedList.values cur = LinkedList.values nx → cur = nx.
Proof.
  revert nx. induction cur as [|v cur IH] using LinkedList.chain_ind;
    intros [[w nx]|]; rewrite ?values_link; try easy.
  intros [= -> Hrest]. now rewrite (IH nx Hrest).
Qed.

End Chains.

(** ** The walks of [insertAt] and [removeAt] *)

Section Walks.
Context {T : Type}.

Implicit Types (cur nx : option (LinkedList.node T)) (v : T) (steps : nat).

(** A walk of [steps] links that stays inside the chain splices the new
    node in after the node it stops at. *)
Lemma insert_walk_values steps cur v :
  (steps < length (LinkedList.values cur))%nat →
  ∃ h, LinkedList.insert_walk steps cur v = Return h
     ∧ LinkedList.values (Some h)
       = take (S steps) (LinkedList.values cur)
         ++ v :: drop (S steps) (LinkedList.values cur).
Proof.
  revert steps.
  induction cur as [|w nx IH] using LinkedList.chain_ind; intros steps Hlt.
  - cbn in Hlt. lia.
  - rewrite values_link in Hlt |- *. cbn [length] in Hlt.
    destruct steps as [|k].
    + eexists. split; [reflexivity|].
      cbn [LinkedListNode.value LinkedListNode.next].
      now rewrite !values_link.
    + destruct (IH k) as (h & Hwalk & Hh); [lia|].
      cbn [LinkedList.insert_walk LinkedListNode.value LinkedListNode.next].
      rewrite Hwalk. eexists. split; [reflexivity|].
      rewrite values_link, Hh. reflexivity.
Qed.

(** A walk that runs off the chain reads a field of [undefined]. *)
Lemma insert_walk_off_chain steps cur v :
  (length (LinkedList.values cur) ≤ steps)%nat →
  LinkedList.insert_walk steps cur v = Throw TypeError.
Proof.
  revert steps.
  induction cur as [|w nx IH] using LinkedList.chain_ind; intros steps Hge.
  - now destruct steps.
  - rewrite values_link in Hge. cbn [length] in Hge.
    destruct steps as [|k]; [lia|].
    cbn [LinkedList.insert_walk LinkedListNode.next].
    rewrite IH by lia. reflexivity.
Qed.

(** A walk of [steps] links with a node after the one it stops at unlinks
    that next node. *)
Lemma remove_walk_values steps cur :
  (S steps < length (LinkedList.values cur))%nat →
  ∃ r h, LinkedList.remove_walk steps cur = Return (Some r, h)
       ∧ LinkedList.values cur !! S steps = Some (LinkedListNode.value r)
       ∧ LinkedList.values (Some h)
         = take (S steps) (LinkedList.values cur)
           ++ drop (S (S steps)) (LinkedList.values cur).
Proof.
  revert steps.
  induction cur as [|w nx IH] using LinkedList.chain_ind; intros steps Hlt.
  - cbn in Hlt. lia.
  - rewrite values_link in Hlt |- *. cbn [length] in Hlt.
    destruct steps as [|k].
    + destruct nx as [[x nx']|]; [|cbn in Hlt; lia].
      exists (LinkedList.Node x nx'). eexists. split; [reflexivity|].
      cbn [LinkedListNode.value LinkedListNode.next mbind option_bind].
      rewrite !values_link. split; reflexivity.
    + destruct (IH k) as (r & h & Hwalk & Hr & Hh); [lia|].
      cbn [LinkedList.remove_walk LinkedListNode.value LinkedListNode.next].
      rewrite Hwalk. exists r. eexists. split; [reflexivity|].
      split; [exact Hr|].
      rewrite values_link, Hh. reflexivity.
Qed.

(** The loop of [find] is the search of the first match in the values. *)
Lemma find_loop_values (p : T → bool) (n : LinkedList.node T) :
  LinkedList.find_loop p n = List.find p (LinkedList.values (Some n)).
Proof.
  induction n as [w|w m IH] using node_ind_last_link.
  - cbn. now destruct (p w).
  - rewrite values_link.
    cbn [LinkedList.find_loop List.find LinkedListNode.value
         LinkedListNode.next].
    now destruct (p w).
Qed.

Lemma find_values (p : T → bool) (l : LinkedList.t T) :
  LinkedList.find p l = List.find p (LinkedList.toArray l).
Proof.
  unfold LinkedList.find, LinkedList.toArray.
  destruct (LinkedList.head l) as [n|]; [apply find_loop_values|reflexivity].
Qed.

End Walks.

(** The first match of a predicate in a sequence. *)
Lemma list_find_first {T : Type} (p : T → bool) (xs : list T) (x : T) :
  List.find p xs = Some x ↔
  ∃ pre post, xs = pre ++ x :: post ∧ p x = true
            ∧ Forall (λ y, p y = false) pre.
Proof.
  induction xs as [|y ys IH]; cbn [List.find].
  - split; [discriminate|].
    intros (pre & post & Heq & _). now destruct pre.
  - destruct (p y) eqn:Hy.
    + split.
      * intros [= ->]. exists [], ys. auto.
      * intros ([|z pre] & post & Heq & Hx & Hpre).
        -- now injection Heq as ->.
        -- injection Heq as -> _. apply Forall_cons in Hpre as [Hz _].
           congruence.
    + rewrite IH. split.
      * intros (pre & post & -> & Hx & Hpre).
        exists (y :: pre), post. auto.
      * intros ([|z pre] & post & Heq & Hx & Hpre).
        -- injection Heq as -> _. congruence.
        -- injection Heq as -> ->. apply Forall_cons in Hpre as [_ Hpre].
           eauto.
Qed.

Lemma list_find_none {T : Type} (p : T → bool) (xs : list T) :
  List.find p xs = None ↔ Forall (λ y, p y = false) xs.
Proof.
  induction xs as [|y ys IH]; cbn [List.find].
  - split; auto.
  - destruct (p y) eqn:Hy.
    + split; [discriminate|].
      intros [Hy' _]%Forall_cons. congruence.
    + rewrite IH. split; [auto|]. now intros [_ ?]%Forall_cons.
Qed.

(** ** The operations of [LinkedList] on the sequence of values *)

Section Operations.
Context {T : Type}.

Implicit Types (l : LinkedList.t T) (v : T) (i : Z) (arr : list T).

Lemma toArray_add v l :
  LinkedList.toArray (LinkedList.add v l) = LinkedList.toArray l ++ [v].
Proof.
  rewrite !toArray_values. unfold LinkedList.add.
  cbn [LinkedList.head].
  destruct (LinkedList.head l) as [cur|]; [|reflexivity].
  now rewrite values_add_loop.
Qed.

Lemma size_add v l :
  LinkedList.size (LinkedList.add v l) = LinkedList.size l + 1.
Proof. reflexivity. Qed.

Lemma fold_add_toArray arr l :
  LinkedList.toArray (fold_left (λ l' v, LinkedList.add v l') arr l)
  = LinkedList.toArray l ++ arr.
Proof.
  revert l. induction arr as [|v arr IH]; intros l; cbn [fold_left].
  - now rewrite app_nil_r.
  - now rewrite IH, toArray_add, <- app_assoc.
Qed.

Lemma fold_add_size arr l :
  LinkedList.size (fold_left (λ l' v, LinkedList.add v l') arr l)
  = LinkedList.size l + Array.length arr.
Proof.
  revert l. induction arr as [|v arr IH]; intros l; cbn [fold_left].
  - unfold Array.length. cbn. lia.
  - rewrite IH, size_add. unfold Array.length. cbn [length]. lia.
Qed.

Lemma toArray_fromArray arr :
  LinkedList.toArray (LinkedList.fromArray arr) = arr.
Proof. unfold LinkedList.fromArray. now rewrite fold_add_toArray. Qed.

Lemma counted_new : LinkedList.counted (@LinkedList.new T).
Proof. reflexivity. Qed.

Lemma counted_clear l : LinkedList.counted (LinkedList.clear l).
Proof. reflexivity. Qed.

Lemma counted_add v l :
  LinkedList.counted l → LinkedList.counted (LinkedList.add v l).
Proof.
  unfold LinkedList.counted. intros Hl.
  rewrite size_add, toArray_add, Hl. unfold Array.length.
  rewrite length_app. cbn [length]. lia.
Qed.

Lemma counted_fromArray arr : LinkedList.counted (LinkedList.fromArray arr).
Proof.
  unfold LinkedList.counted, LinkedList.fromArray.
  now rewrite fold_add_size, fold_add_toArray.
Qed.

Lemma same_head_same_size l l' :
  LinkedList.head l = LinkedList.head l' →
  LinkedList.size l = LinkedList.size l' →
  l = l'.
Proof.
  destruct l, l'. unfold LinkedList.size. cbn. congruence.
Qed.

(** A list whose counter is right is the list [fromArray] builds from its
    values: the invariant describes the states the operations produce and
    no others. *)
Lemma counted_fromArray_toArray l :
  LinkedList.counted l → LinkedList.fromArray (LinkedList.toArray l) = l.
Proof.
  intros Hl.
  pose proof (toArray_fromArray (LinkedList.toArray l)) as Harr.
  pose proof (counted_fromArray (LinkedList.toArray l)) as Hsize.
  unfold LinkedList.counted in Hl, Hsize. rewrite Harr, <- Hl in Hsize.
  rewrite !toArray_values in Harr. apply values_inj in Harr.
  now apply same_head_same_size.
Qed.

(** The range test of [insertAt] fails: [RangeError], the list is as it
    was. *)
Lemma insertAt_throws i v l :
  i < 0 ∨ LinkedList.size l < i →
  LinkedList.insertAt i v l
  = (Throw (RangeError "index out of bounds"), l).
Proof.
  intros Hout. unfold LinkedList.insertAt, LinkedList.size in *.
  destruct (Z.ltb_spec i 0), (Z.gtb_spec i (LinkedList._size l));
    try reflexivity; lia.
Qed.

(** The range test of [insertAt] passes on a list whose counter is right. *)
Lemma insertAt_returns i v l :
  LinkedList.counted l →
  0 ≤ i ≤ LinkedList.size l →
  ∃ l', LinkedList.insertAt i v l = (Return (), l')
      ∧ LinkedList.toArray l'
        = take (Z.to_nat i) (LinkedList.toArray l)
          ++ v :: drop (Z.to_nat i) (LinkedList.toArray l)
      ∧ LinkedList.size l' = LinkedList.size l + 1.
Proof.
  unfold LinkedList.counted, Array.length. intros Hl Hin.
  unfold LinkedList.insertAt. fold (LinkedList.size l).
  destruct (Z.ltb_spec i 0); [lia|].
  destruct (Z.gtb_spec i (LinkedList.size l)); [lia|].
  cbn [orb]. destruct (Z.eqb_spec i 0) as [->|Hi].
  - eexists. split; [reflexivity|]. split; [|reflexivity].
    rewrite !toArray_values. cbn [LinkedList.head].
    now rewrite values_link.
  - destruct (insert_walk_values (Z.to_nat (i - 1)) (LinkedList.head l) v)
      as (h & Hwalk & Hh).
    { rewrite <- toArray_values. lia. }
    rewrite Hwalk. eexists. split; [reflexivity|]. split; [|reflexivity].
    rewrite !toArray_values in *. cbn [LinkedList.head].
    rewrite Hh. now replace (S (Z.to_nat (i - 1))) with (Z.to_nat i) by lia.
Qed.

(** The range test of [removeAt] fails: [undefined], the list is as it
    was. *)
Lemma removeAt_absent i l :
  i < 0 ∨ LinkedList.size l ≤ i →
  LinkedList.removeAt i l = (Return None, l).
Proof.
  intros Hout. unfold LinkedList.removeAt, LinkedList.size in *.
  destruct (Z.ltb_spec i 0), (Z.geb_spec i (LinkedList._size l));
    try reflexivity; lia.
Qed.

(** The range test of [removeAt] passes on a list whose counter is right. *)
Lemma removeAt_present i l :
  LinkedList.counted l →
  0 ≤ i < LinkedList.size l →
  ∃ x l', LinkedList.removeAt i l = (Return (Some x), l')
        ∧ LinkedList.toArray l !! Z.to_nat i = Some x
        ∧ LinkedList.toArray l'
          = take (Z.to_nat i) (LinkedList.toArray l)
            ++ drop (S (Z.to_nat i)) (LinkedList.toArray l)
        ∧ LinkedList.size l' = LinkedList.size l - 1.
Proof.
  unfold LinkedList.counted, Array.length. intros Hl Hin.
  unfold LinkedList.removeAt. fold (LinkedList.size l).
  destruct (Z.ltb_spec i 0); [lia|].
  destruct (Z.geb_spec i (LinkedList.size l)); [lia|].
  cbn [orb]. unfold LinkedList.unlink.
  destruct (Z.eqb_spec i 0) as [->|Hi].
  - rewrite toArray_values in *.
    destruct (LinkedList.head l) as [[x nx]|] eqn:Hhead; [|cbn in Hl; lia].
    exists x. eexists. split; [reflexivity|].
    rewrite !toArray_values. cbn [LinkedList.head].
    rewrite values_link. repeat split.
  - destruct (remove_walk_values (Z.to_nat (i - 1)) (LinkedList.head l))
      as (r & h & Hwalk & Hr & Hh).
    { rewrite <- toArray_values. lia. }
    rewrite Hwalk. cbn [mbind completion_bind].
    exists (LinkedListNode.value r). eexists. split; [reflexivity|].
    rewrite !toArray_values in *. cbn [LinkedList.head].
    replace (S (Z.to_nat (i - 1))) with (Z.to_nat i) in * by lia.
    repeat split; assumption.
Qed.

End Operations.

(** ** The counter along sequences of calls *)

Section Invariant.
Context {T : Type}.

Implicit Types (l : LinkedList.t T) (v : T) (i : Z).
Implicit Types (o : LinkedList.op T) (ops : list (LinkedList.op T)).

Lemma counted_insertAt i v l :
  LinkedList.counted l → LinkedList.counted (LinkedList.insertAt i v l).2.
Proof.
  intros Hl.
  destruct (Z.lt_ge_cases i 0) as [Hneg|Hpos];
    [rewrite insertAt_throws by auto; exact Hl|].
  destruct (Z.lt_ge_cases (LinkedList.size l) i) as [Hbig|Hle];
    [rewrite insertAt_throws by auto; exact Hl|].
  destruct (insertAt_returns i v l Hl) as (l' & -> & Harr & Hsize); [lia|].
  unfold LinkedList.counted, Array.length in *. cbn [snd].
  rewrite Hsize, Harr, Hl, length_app. cbn [length].
  rewrite length_take, length_drop. lia.
Qed.

Lemma counted_removeAt i l :
  LinkedList.counted l → LinkedList.counted (LinkedList.removeAt i l).2.
Proof.
  intros Hl.
  destruct (Z.lt_ge_cases i 0) as [Hneg|Hpos];
    [rewrite removeAt_absent by auto; exact Hl|].
  destruct (Z.le_gt_cases (LinkedList.size l) i) as [Hbig|Hlt];
    [rewrite removeAt_absent by auto; exact Hl|].
  destruct (removeAt_present i l Hl) as (x & l' & -> & _ & Harr & Hsize);
    [lia|].
  unfold LinkedList.counted, Array.length in *. cbn [snd].
  rewrite Hsize, Harr, Hl, length_app, length_take, length_drop. lia.
Qed.

Lemma counted_call o l :
  LinkedList.counted l → LinkedList.counted (LinkedList.call o l).2.
Proof.
  intros Hl. destruct o as [arr|v|i v|i|]; cbn [LinkedList.call snd].
  - apply counted_fromArray.
  - now apply counted_add.
  - now apply counted_insertAt.
  - pose proof (counted_removeAt i l Hl) as Hrem.
    now destruct (LinkedList.removeAt i l).
  - apply counted_clear.
Qed.

Lemma counted_run ops l :
  LinkedList.counted l → LinkedList.counted (LinkedList.run ops l).2.
Proof.
  revert l. induction ops as [|o ops IH]; intros l Hl; cbn [LinkedList.run].
  - exact Hl.
  - pose proof (counted_call o l Hl) as Hcall.
    destruct (LinkedList.call o l) as [[u|e] l']; cbn [snd] in *; auto.
Qed.

(** On a list whose counter is right no call reads a field of [undefined]:
    the one exception a sequence of calls can end in is the [RangeError] of
    [insertAt]. *)
Lemma call_throws o l e :
  LinkedList.counted l →
  (LinkedList.call o l).1 = Throw e →
  e = RangeError "index out of bounds".
Proof.
  intros Hl. destruct o as [arr|v|i v|i|]; cbn [LinkedList.call fst];
    try discriminate.
  - destruct (Z.lt_ge_cases i 0) as [Hneg|Hpos];
      [rewrite insertAt_throws by auto; now intros [= <-]|].
    destruct (Z.lt_ge_cases (LinkedList.size l) i) as [Hbig|Hle];
      [rewrite insertAt_throws by auto; now intros [= <-]|].
    destruct (insertAt_returns i v l Hl) as (l' & -> & _); [lia|].
    discriminate.
  - destruct (Z.lt_ge_cases i 0) as [Hneg|Hpos];
      [rewrite removeAt_absent by auto; discriminate|].
    destruct (Z.le_gt_cases (LinkedList.size l) i) as [Hbig|Hlt];
      [rewrite removeAt_absent by auto; discriminate|].
    destruct (removeAt_present i l Hl) as (x & l' & -> & _); [lia|].
    discriminate.
Qed.

Lemma run_throws ops l e :
  LinkedList.counted l →
  (LinkedList.run ops l).1 = Throw e →
  e = RangeError "index out of bounds".
Proof.
  revert l. induction ops as [|o ops IH]; intros l Hl; cbn [LinkedList.run].
  - discriminate.
  - pose proof (counted_call o l Hl) as Hcall.
    pose proof (call_throws o l) as Hthrow.
    destruct (LinkedList.call o l) as [[u|e'] l']; cbn [fst snd] in *.
    + now apply IH.
    + intros [= <-]. now apply Hthrow.
Qed.

End Invariant.

(** * The claims of the specification *)

(** ** [LinkedList.insertAt] *)

(** C1. On a list holding [n] elements (its counter being right),
    [insertAt(i, v)] with [0 ≤ i ≤ n] returns normally, the sequence
    afterwards is the first [i] old elements, then [v], then the remaining
    old elements, so [v] is at position [i], and [size()] has grown by
    exactly 1. In particular, after the appends of 1, 2, 3, [insertAt(2, 99)]
    leaves [[1; 2; 99; 3]]. *)
Theorem insertAt_in_range :
  (∀ (T : Type) (l : LinkedList.t T) (i : Z) (v : T),
     LinkedList.counted l →
     0 ≤ i ≤ Array.length (LinkedList.toArray l) →
     ∃ l', LinkedList.insertAt i v l = (Return (), l')
         ∧ LinkedList.toArray l'
           = take (Z.to_nat i) (LinkedList.toArray l)
             ++ v :: drop (Z.to_nat i) (LinkedList.toArray l)
         ∧ Array.get (LinkedList.toArray l') i = Some v
         ∧ LinkedList.size l' = LinkedList.size l + 1)
  ∧ (∃ l',
       LinkedList.insertAt 2 99
         (LinkedList.add 3 (LinkedList.add 2 (LinkedList.add 1 LinkedList.new)))
       = (Return (), l')
       ∧ LinkedList.toArray l' = [1; 2; 99; 3]).
Proof.
  split.
  - intros T l i v Hl Hin.
    destruct (insertAt_returns i v l Hl) as (l' & Hcall & Harr & Hsize).
    { rewrite Hl. exact Hin. }
    exists l'. repeat split; try assumption.
    unfold Array.get, Array.length in *.
    destruct (Z.ltb_spec i 0); [lia|].
    rewrite Harr, lookup_app_r; rewrite length_take; [|lia].
    now replace (Z.to_nat i - _)%nat with 0%nat by lia.
  - eexists. split; reflexivity.
Qed.

Lemma insertAt_in_range_witness :
  ∃ l',
    LinkedList.insertAt 1 7 (LinkedList.fromArray [5; 6]) = (Return (), l')
      ∧ LinkedList.toArray l' = [5; 7; 6]
      ∧ LinkedList.size l' = 3.
Proof.
  destruct (proj1 insertAt_in_range Z (LinkedList.fromArray [5; 6]) 1 7)
    as (l' & Hcall & Harr & _ & Hsize).
  - reflexivity.
  - unfold Array.length. cbn. lia.
  - exists l'. split; [exact Hcall|]. split; [exact Harr|exact Hsize].
Defined.

(** C3. On a list holding [n] elements, [insertAt(i, v)] throws a
    [RangeError] exactly when [i < 0] or [i > n]: it is an exception, not a
    returned [undefined], and the failed call leaves the list (contents and
    counter) as it was. *)
Theorem insertAt_out_of_range
    (T : Type) (l : LinkedList.t T) (i : Z) (v : T) :
  LinkedList.counted l →
  let n := Array.length (LinkedList.toArray l) in
  ((∃ msg, (LinkedList.insertAt i v l).1 = Throw (RangeError msg))
   ↔ i < 0 ∨ i > n)
  ∧ (i < 0 ∨ i > n →
     LinkedList.insertAt i v l = (Throw (RangeError "index out of bounds"), l)
     ∧ LinkedList.toArray (LinkedList.insertAt i v l).2 = LinkedList.toArray l
     ∧ LinkedList.size (LinkedList.insertAt i v l).2 = LinkedList.size l).
Proof.
  intros Hl n. subst n. rewrite <- Hl.
  assert (Hout : i < 0 ∨ i > LinkedList.size l →
                 LinkedList.insertAt i v l
                 = (Throw (RangeError "index out of bounds"), l)).
  { intros Hout. apply insertAt_throws. lia. }
  split; [split|].
  - intros [msg Hthrow].
    destruct (Z.lt_ge_cases i 0) as [Hneg|Hpos]; [auto|].
    destruct (Z.lt_ge_cases (LinkedList.size l) i) as [Hbig|Hle];
      [right; lia|].
    destruct (insertAt_returns i v l Hl) as (l' & Hcall & _); [lia|].
    rewrite Hcall in Hthrow. discriminate.
  - intros Hi. rewrite Hout by exact Hi. eauto.
  - intros Hi. rewrite Hout by exact Hi. auto.
Qed.

Lemma insertAt_out_of_range_witness :
  LinkedList.insertAt 4 99 (LinkedList.fromArray [1; 2; 3])
  = (Throw (RangeError "index out of bounds"), LinkedList.fromArray [1; 2; 3]).
Proof.
  apply (insertAt_out_of_range Z (LinkedList.fromArray [1; 2; 3]) 4 99).
  - reflexivity.
  - right. unfold Array.length. cbn. lia.
Defined.

(** ** [LinkedList.removeAt] *)

(** C2. On a list holding [n] elements, [removeAt(i)] with [0 ≤ i < n]
    returns the element at position [i] and removes exactly that element:
    the sequence afterwards is the old one without position [i], the other
    elements in their order. In particular [removeAt(2)] on [[1; 2; 99; 3]]
    returns 99 and leaves [[1; 2; 3]]. *)
Theorem removeAt_in_range :
  (∀ (T : Type) (l : LinkedList.t T) (i : Z),
     LinkedList.counted l →
     0 ≤ i < Array.length (LinkedList.toArray l) →
     ∃ x l', LinkedList.removeAt i l = (Return (Some x), l')
           ∧ Array.get (LinkedList.toArray l) i = Some x
           ∧ LinkedList.toArray l'
             = take (Z.to_nat i) (LinkedList.toArray l)
               ++ drop (S (Z.to_nat i)) (LinkedList.toArray l))
  ∧ (∃ l',
       LinkedList.removeAt 2 (LinkedList.fromArray [1; 2; 99; 3])
       = (Return (Some 99), l')
       ∧ LinkedList.toArray l' = [1; 2; 3]).
Proof.
  split.
  - intros T l i Hl Hin.
    destruct (removeAt_present i l Hl) as (x & l' & Hcall & Hx & Harr & _).
    { rewrite Hl. exact Hin. }
    exists x, l'. repeat split; try assumption.
    unfold Array.get. destruct (Z.ltb_spec i 0); [lia|exact Hx].
  - eexists. split; reflexivity.
Qed.

Lemma removeAt_in_range_witness :
  ∃ l',
    LinkedList.removeAt 0 (LinkedList.fromArray [5; 6])
    = (Return (Some 5), l')
    ∧ LinkedList.toArray l' = [6].
Proof.
  destruct (proj1 removeAt_in_range Z (LinkedList.fromArray [5; 6]) 0)
    as (x & l' & Hcall & Hx & Harr).
  - reflexivity.
  - unfold Array.length. cbn. lia.
  - injection Hx as <-. exists l'. split; [exact Hcall|exact Harr].
Defined.

(** X17. On a list holding [n] elements, [removeAt(i)] with an integer [i]
    outside [[0, n)] returns [undefined] without throwing and leaves the
    list as it was: the same contents, the same [size()]. *)
Theorem removeAt_out_of_range (T : Type) (l : LinkedList.t T) (i : Z) :
  LinkedList.counted l →
  i < 0 ∨ Array.length (LinkedList.toArray l) ≤ i →
  LinkedList.removeAt i l = (Return None, l)
  ∧ LinkedList.size (LinkedList.removeAt i l).2 = LinkedList.size l
  ∧ LinkedList.toArray (LinkedList.removeAt i l).2 = LinkedList.toArray l.
Proof.
  intros Hl Hout. rewrite <- Hl in Hout.
  rewrite removeAt_absent by exact Hout. auto.
Qed.

Lemma removeAt_out_of_range_witness :
  LinkedList.removeAt 3 (LinkedList.fromArray [1; 2; 3])
  = (Return None, LinkedList.fromArray [1; 2; 3]).
Proof.
  apply (removeAt_out_of_range Z (LinkedList.fromArray [1; 2; 3]) 3).
  - reflexivity.
  - right. unfold Array.length. cbn. lia.
Defined.

(** On an integer index [removeAt_number] is [removeAt]. *)
Lemma removeAt_number_Int {T : Type} (i : Z) (l : LinkedList.t T) :
  LinkedList.removeAt_number (Number.Int i) l = LinkedList.removeAt i l.
Proof. reflexivity. Qed.

(** C4. The claim fails at the index [NaN], which is outside [[0, n)] and
    which both range tests of [removeAt] let through: on the list
    [[1; 2; 3]] the call [removeAt(NaN)] returns 2 and leaves [[1; 3]] with
    [size()] 2, where the claim has [undefined] and an unchanged list; on a
    new list it throws a [TypeError], reading [cur.next] of [undefined],
    where the claim has no exception. *)
Theorem removeAt_NaN_passes_range_test :
  LinkedList.removeAt_number Number.NaN (LinkedList.fromArray [1; 2; 3])
  = (Return (Some 2), LinkedList.fromArray [1; 3])
  ∧ LinkedList.size
      (LinkedList.removeAt_number Number.NaN (LinkedList.fromArray [1; 2; 3])).2
    = 2
  ∧ LinkedList.removeAt_number Number.NaN (@LinkedList.new Z)
    = (Throw TypeError, LinkedList.new).
Proof. repeat split. Qed.

(** ** [LinkedList.add], [fromArray], [find], [clear] *)

(** C5. [add(v)] puts [v] at the end: [toArray()] afterwards is the old
    [toArray()] followed by [v]; hence [fromArray(arr).toArray()] is
    [arr]. *)
Theorem add_at_end_fromArray_toArray (T : Type) :
  (∀ (l : LinkedList.t T) (v : T),
     LinkedList.toArray (LinkedList.add v l) = LinkedList.toArray l ++ [v])
  ∧ (∀ arr : list T, LinkedList.toArray (LinkedList.fromArray arr) = arr).
Proof. split; [intros l v; apply toArray_add|apply toArray_fromArray]. Qed.

(** C6. [find(p)] returns the first element, from the head on, that
    satisfies [p]: it returns [x] exactly when the sequence is [pre], [x],
    [post] with [p x] and no element of [pre] satisfying [p]; it returns
    [undefined] exactly when no element satisfies [p]. In particular
    [find(v => v > 50)] on [[1; 2; 99; 3]] is 99. *)
Theorem find_first_match :
  (∀ (T : Type) (p : T → bool) (l : LinkedList.t T),
     (∀ x, LinkedList.find p l = Some x ↔
           ∃ pre post, LinkedList.toArray l = pre ++ x :: post
                     ∧ p x = true
                     ∧ Forall (λ y, p y = false) pre)
     ∧ (LinkedList.find p l = None ↔
        Forall (λ y, p y = false) (LinkedList.toArray l)))
  ∧ LinkedList.find (λ v, v >? 50) (LinkedList.fromArray [1; 2; 99; 3])
    = Some 99.
Proof.
  split; [|reflexivity].
  intros T p l. rewrite find_values. split.
  - intros x. apply list_find_first.
  - apply list_find_none.
Qed.

(** C7. After [clear()] the list is empty, whatever it was before:
    [size()] is 0 and [toArray()] is the empty sequence. *)
Theorem clear_empties (T : Type) (l : LinkedList.t T) :
  LinkedList.size (LinkedList.clear l) = 0
  ∧ LinkedList.toArray (LinkedList.clear l) = [].
Proof. split; reflexivity. Qed.

(** C9. After any sequence of calls of the public operations that runs to
    its end (so every [insertAt] in it had an index in range), starting from
    a new list, the counter returned by [size()] is the number of elements
    reachable from the head: [size() = toArray().length]. *)
Theorem size_counts_elements
    (T : Type) (ops : list (LinkedList.op T)) (l : LinkedList.t T) :
  LinkedList.run ops LinkedList.new = (Return (), l) →
  LinkedList.size l = Array.length (LinkedList.toArray l).
Proof.
  intros Hrun.
  pose proof (counted_run ops LinkedList.new counted_new) as Hl.
  rewrite Hrun in Hl. exact Hl.
Qed.

Lemma size_counts_elements_witness :
  let ops :=
    [LinkedList.FromArray [1; 2; 3]; LinkedList.Add 4;
     LinkedList.InsertAt 2 99; LinkedList.RemoveAt 2;
     LinkedList.RemoveAt 7] in
  let l := LinkedList.fromArray [1; 2; 3; 4] in
  LinkedList.run ops LinkedList.new = (Return (), l)
  ∧ LinkedList.size l = Array.length (LinkedList.toArray l).
Proof.
  intros ops l. split.
  - vm_compute. reflexivity.
  - apply (size_counts_elements Z ops l). vm_compute. reflexivity.
Defined.

(** ** [ensureHasLength] *)

(** C8. [ensureHasLength(arg)] throws [Error('Empty')] exactly when
    [arg.length] is 0, and otherwise returns [arg] itself; the exception is
    the completion of the call, handed to the caller. *)
Theorem ensureHasLength_spec
    (T : Type) (H : Constraint.HasLength T) (arg : T) :
  (Constraint.ensureHasLength arg = Throw (Error "Empty")
   ↔ Constraint.length arg = 0)
  ∧ ((∃ e, Constraint.ensureHasLength arg = Throw e)
     ↔ Constraint.length arg = 0)
  ∧ (Constraint.length arg ≠ 0 →
     Constraint.ensureHasLength arg = Return arg).
Proof.
  unfold Constraint.ensureHasLength.
  destruct (Z.eqb_spec (Constraint.length arg) 0) as [Hz|Hnz].
  - repeat split; eauto. intros Hne. now destruct Hne.
  - repeat split; try easy. now intros [e He].
Qed.

Lemma ensureHasLength_spec_witness :
  Constraint.ensureHasLength [1; 2; 3] = Return [1; 2; 3]
  ∧ Constraint.ensureHasLength "abc"%string = Return "abc"%string
  ∧ Constraint.ensureHasLength (@nil Z) = Throw (Error "Empty").
Proof.
  split; [|split].
  - apply (ensureHasLength_spec (list Z) _ [1; 2; 3]).
    vm_compute. discriminate.
  - apply (ensureHasLength_spec string _ "abc"%string).
    vm_compute. discriminate.
  - apply (ensureHasLength_spec (list Z) _ []). reflexivity.
Defined.

(** ** [Stack] *)

(** C10. On an empty stack [pop()] and [peek()] return [undefined] and
    throw nothing, the stack staying empty; and in every state [push(x)]
    followed by [pop()] returns [x] and gives the state before the push
    back. *)
Theorem Stack_empty_and_push_pop (T : Type) :
  (∀ s : Stack.t T,
     Stack.items s = [] → Stack.pop s = (None, s) ∧ Stack.peek s = None)
  ∧ (∀ (s : Stack.t T) (x : T), Stack.pop (Stack.push x s) = (Some x, s)).
Proof.
  split.
  - intros [items] Hempty. cbn in Hempty. subst items. split; reflexivity.
  - intros [items] x. unfold Stack.pop, Stack.push. cbn [Stack.items].
    now rewrite Array_pop_push.
Qed.

Lemma Stack_empty_and_push_pop_witness :
  Stack.pop (@Stack.new Z) = (None, Stack.new)
  ∧ Stack.peek (@Stack.new Z) = None.
Proof.
  apply (proj1 (Stack_empty_and_push_pop Z) Stack.new). reflexivity.
Defined.

(** * Further properties of the code *)

(** ** [Stack]: last in, first out *)

Lemma Array_get_last {T : Type} (arr : list T) :
  Array.get arr (Array.length arr - 1) = last arr.
Proof.
  unfold Array.get, Array.length. rewrite last_lookup.
  destruct arr as [|x arr]; [reflexivity|]. cbn [length].
  destruct (Z.ltb_spec (Z.of_nat (S (length arr)) - 1) 0); [lia|].
  f_equal. lia.
Qed.

Lemma push_all_snoc {T : Type} (xs : list T) (x : T) (s : Stack.t T) :
  Stack.push_all (xs ++ [x]) s = Stack.push x (Stack.push_all xs s).
Proof. unfold Stack.push_all. now rewrite fold_left_app. Qed.

Lemma pop_push {T : Type} (x : T) (s : Stack.t T) :
  Stack.pop (Stack.push x s) = (Some x, s).
Proof.
  destruct s as [items]. unfold Stack.pop, Stack.push. cbn [Stack.items].
  now rewrite Array_pop_push.
Qed.

(** X1. [peek()] returns what [pop()] would return, on every stack, the
    empty one included. *)
Theorem Stack_peek_is_next_pop (T : Type) (s : Stack.t T) :
  Stack.peek s = (Stack.pop s).1.
Proof.
  destruct s as [items]. unfold Stack.peek, Stack.pop, Array.pop.
  cbn [Stack.items fst]. apply Array_get_last.
Qed.

(** X2. Last in, first out: after pushing [xs] in order onto any stack, as
    many calls of [pop()] return the elements of [xs] in reverse order and
    leave the stack as it was before the pushes; and on a new stack every
    [pop()] of a row of calls returns [undefined]. *)
Theorem Stack_lifo (T : Type) :
  (∀ (xs : list T) (s : Stack.t T),
     Stack.pop_times (length xs) (Stack.push_all xs s)
     = (Some <$> reverse xs, s))
  ∧ (∀ k : nat,
       Stack.pop_times k (@Stack.new T) = (replicate k None, Stack.new)).
Proof.
  split.
  - intros xs. induction xs as [|x xs IH] using rev_ind; intros s.
    + reflexivity.
    + rewrite length_app, Nat.add_1_r, push_all_snoc, reverse_snoc.
      cbn [Stack.pop_times]. now rewrite pop_push, IH.
  - intros k. induction k as [|k IH]; [reflexivity|].
    cbn [Stack.pop_times].
    change (Stack.pop Stack.new) with (@None T, @Stack.new T).
    cbv beta iota. now rewrite IH.
Qed.

(** ** [LinkedList]: traversals *)

Section Traversals.
Context {T : Type}.

Implicit Types (cur : option (LinkedList.node T)) (l : LinkedList.t T).

(** The calls [forEach] makes from a node on, the counter being [i] there. *)
Lemma forEach_loop_values {S : Type} (fn : T → Z → S → S)
    (n : LinkedList.node T) (i : Z) (s : S) :
  LinkedList.forEach_loop fn n i s
  = fold_left (λ s' p, fn p.2 p.1 s')
      (imap (λ j v, (i + Z.of_nat j, v)) (LinkedList.values (Some n))) s.
Proof.
  revert i s. induction n as [w|w m IH] using node_ind_last_link; intros i s.
  - cbn. now rewrite Z.add_0_r.
  - rewrite values_link.
    cbn [LinkedList.forEach_loop LinkedListNode.value LinkedListNode.next
         imap fold_left fst snd].
    rewrite Z.add_0_r, IH. f_equal. apply imap_ext. intros j v _. cbn.
    f_equal. lia.
Qed.

Lemma after_end (k : nat) :
  LinkedList.Iterator.after k (@None (LinkedList.node T)) = None.
Proof. induction k as [|k IH]; [reflexivity|exact IH]. Qed.

Lemma next_after_values (k : nat) cur :
  (LinkedList.Iterator.next (LinkedList.Iterator.after k cur)).1
  = match LinkedList.values cur !! k with
    | Some x => LinkedList.Yield x
    | None => LinkedList.Done
    end.
Proof.
  revert cur. induction k as [|k IH]; intros [[v nx]|];
    rewrite ?values_link; try reflexivity.
  - cbn [LinkedList.Iterator.after LinkedList.Iterator.next snd
         LinkedListNode.next].
    now rewrite IH.
  - now rewrite after_end.
Qed.

Lemma for_of_values {S : Type} (fuel : nat) cur (body : T → S → S) (s : S) :
  (length (LinkedList.values cur) < fuel)%nat →
  LinkedList.Iterator.for_of fuel cur body s
  = Some (fold_left (λ s' v, body v s') (LinkedList.values cur) s).
Proof.
  revert fuel s.
  induction cur as [|w nx IH] using LinkedList.chain_ind; intros fuel s Hlt.
  - destruct fuel; [cbn in Hlt; lia|reflexivity].
  - rewrite values_link in Hlt |- *. cbn [length] in Hlt.
    destruct fuel as [|fuel]; [lia|].
    cbn [LinkedList.Iterator.for_of LinkedList.Iterator.next
         LinkedListNode.value LinkedListNode.next fold_left].
    apply IH. lia.
Qed.

Lemma for_of_short {S : Type} (fuel : nat) cur (body : T → S → S) (s : S) :
  (fuel ≤ length (LinkedList.values cur))%nat →
  LinkedList.Iterator.for_of fuel cur body s = None.
Proof.
  revert fuel s.
  induction cur as [|w nx IH] using LinkedList.chain_ind; intros fuel s Hle.
  - cbn in Hle. now replace fuel with 0%nat by lia.
  - rewrite values_link in Hle. cbn [length] in Hle.
    destruct fuel as [|fuel]; [reflexivity|].
    cbn [LinkedList.Iterator.for_of LinkedList.Iterator.next
         LinkedListNode.value LinkedListNode.next].
    apply IH. lia.
Qed.

End Traversals.

(** X3. [forEach(fn)] calls [fn] once for each element, in the order of
    [toArray()], with the position of the element, counted from 0, as the
    second argument. *)
Theorem forEach_in_order_with_index
    (T S : Type) (fn : T → Z → S → S) (l : LinkedList.t T) (s : S) :
  LinkedList.forEach fn l s
  = fold_left (λ s' p, fn p.2 p.1 s')
      (imap (λ j v, (Z.of_nat j, v)) (LinkedList.toArray l)) s.
Proof.
  unfold LinkedList.forEach, LinkedList.toArray.
  destruct (LinkedList.head l) as [n|]; [|reflexivity].
  apply (forEach_loop_values fn n 0).
Qed.

(** X4. The iterator of a list: its call number [k] of [next()], counted
    from 0, reports the element at position [k] of [toArray()], and reports
    [done] once the elements are used up, at that call and at every later
    one. *)
Theorem iterator_next_in_order (T : Type) (l : LinkedList.t T) (k : nat) :
  (LinkedList.Iterator.next
     (LinkedList.Iterator.after k (LinkedList.Iterator.Symbol_iterator l))).1
  = match LinkedList.toArray l !! k with
    | Some x => LinkedList.Yield x
    | None => LinkedList.Done
    end.
Proof. apply next_after_values. Qed.

(** X5. A [for...of] loop over a list whose body does not touch the list
    (nor throws, nor leaves the loop) makes exactly one call of [next()]
    more than there are elements: allowed that many calls or more it ends,
    having run its body on the elements of [toArray()] in order; allowed
    fewer it has not ended. *)
Theorem for_of_visits_toArray
    (T S : Type) (l : LinkedList.t T) (body : T → S → S) (s : S)
    (fuel : nat) :
  ((length (LinkedList.toArray l) < fuel)%nat →
   LinkedList.Iterator.for_of fuel (LinkedList.Iterator.Symbol_iterator l)
     body s
   = Some (fold_left (λ s' v, body v s') (LinkedList.toArray l) s))
  ∧ ((fuel ≤ length (LinkedList.toArray l))%nat →
     LinkedList.Iterator.for_of fuel (LinkedList.Iterator.Symbol_iterator l)
       body s
     = None).
Proof. split; [apply for_of_values|apply for_of_short]. Qed.

Lemma for_of_visits_toArray_witness :
  LinkedList.Iterator.for_of 5
    (LinkedList.Iterator.Symbol_iterator (LinkedList.fromArray [1; 2; 3; 4]))
    (λ v out, Array.push v out) []
  = Some [1; 2; 3; 4]
  ∧ LinkedList.Iterator.for_of 4
      (LinkedList.Iterator.Symbol_iterator (LinkedList.fromArray [1; 2; 3; 4]))
      (λ v out, Array.push v out) []
    = None.
Proof.
  split; [|apply (proj2 (for_of_visits_toArray Z (list Z)
                           (LinkedList.fromArray [1; 2; 3; 4])
                           (λ v out, Array.push v out) [] 4)); cbn; lia].
  apply (proj1 (for_of_visits_toArray Z (list Z)
                  (LinkedList.fromArray [1; 2; 3; 4])
                  (λ v out, Array.push v out) [] 5)).
  cbn. lia.
Defined.

(** ** [LinkedList]: how the operations compose *)

Section Composition.
Context {T : Type}.

Implicit Types (l : LinkedList.t T) (v : T) (i : Z).

(** Two lists with the same values and the same counter are the same. *)
Lemma same_toArray_same_size l l' :
  LinkedList.toArray l = LinkedList.toArray l' →
  LinkedList.size l = LinkedList.size l' →
  l = l'.
Proof.
  rewrite !toArray_values. intros Harr%values_inj Hsize.
  now apply same_head_same_size.
Qed.

Lemma take_drop_middle_removed (xs : list T) (x : T) (k : nat) :
  (k ≤ length xs)%nat →
  let ys := take k xs ++ x :: drop k xs in
  ys !! k = Some x ∧ take k ys ++ drop (S k) ys = xs.
Proof.
  intros Hk ys. subst ys.
  assert (Hlen : k = length (take k xs)) by (rewrite length_take; lia).
  split.
  - rewrite lookup_app_r, <- Hlen, Nat.sub_diag by lia. reflexivity.
  - rewrite take_app_length' by exact Hlen.
    replace (take k xs ++ x :: drop k xs)
      with ((take k xs ++ [x]) ++ drop k xs) by now rewrite <- app_assoc.
    rewrite drop_app_length' by (rewrite length_app; cbn; lia).
    apply take_drop.
Qed.

End Composition.

(** X6. Round trip: on a list whose counter is right, [insertAt(i, v)] with
    [i] in range followed by [removeAt(i)] returns [v] and gives the list
    before the insertion back, contents and counter. *)
Theorem insertAt_then_removeAt
    (T : Type) (l : LinkedList.t T) (i : Z) (v : T) :
  LinkedList.counted l →
  0 ≤ i ≤ LinkedList.size l →
  ∃ l', LinkedList.insertAt i v l = (Return (), l')
      ∧ LinkedList.removeAt i l' = (Return (Some v), l).
Proof.
  intros Hl Hin.
  pose proof (counted_insertAt i v l Hl) as Hl'.
  destruct (insertAt_returns i v l Hl Hin) as (l' & Hins & Harr & Hsize).
  rewrite Hins in Hl'. cbn [snd] in Hl'.
  exists l'. split; [exact Hins|].
  destruct (removeAt_present i l' Hl') as (x & l'' & Hrem & Hx & Harr' & Hsize');
    [lia|].
  destruct (take_drop_middle_removed (LinkedList.toArray l) v (Z.to_nat i))
    as [Hv Hback].
  { unfold LinkedList.counted, Array.length in Hl. lia. }
  rewrite <- Harr in Hv, Hback.
  rewrite Hrem. f_equal; [congruence|].
  apply same_toArray_same_size; [congruence|lia].
Qed.

Lemma insertAt_then_removeAt_witness :
  ∃ l',
    LinkedList.insertAt 2 99 (LinkedList.fromArray [1; 2; 3])
    = (Return (), l')
    ∧ LinkedList.removeAt 2 l'
      = (Return (Some 99), LinkedList.fromArray [1; 2; 3]).
Proof.
  apply (insertAt_then_removeAt Z (LinkedList.fromArray [1; 2; 3]) 2 99).
  - reflexivity.
  - cbn. lia.
Defined.

(** X7. On a list whose counter is right, [insertAt(size(), v)] is
    [add(v)]: it returns normally and leaves the same list. *)
Theorem insertAt_size_is_add (T : Type) (l : LinkedList.t T) (v : T) :
  LinkedList.counted l →
  LinkedList.insertAt (LinkedList.size l) v l = (Return (), LinkedList.add v l).
Proof.
  intros Hl.
  destruct (insertAt_returns (LinkedList.size l) v l Hl)
    as (l' & -> & Harr & Hsize).
  { unfold LinkedList.counted, Array.length in Hl. lia. }
  f_equal. apply same_toArray_same_size.
  - rewrite Harr, toArray_add. unfold LinkedList.counted, Array.length in Hl.
    rewrite Hl, Nat2Z.id, take_ge, drop_ge by lia. reflexivity.
  - now rewrite size_add.
Qed.

Lemma insertAt_size_is_add_witness :
  LinkedList.insertAt 3 4 (LinkedList.fromArray [1; 2; 3])
  = (Return (), LinkedList.add 4 (LinkedList.fromArray [1; 2; 3])).
Proof.
  apply (insertAt_size_is_add Z (LinkedList.fromArray [1; 2; 3]) 4).
  reflexivity.
Defined.

(** X8. On a list whose counter is right, [removeAt(i)] with [0 ≤ i < n]
    lowers [size()] by exactly 1, and [toArray()] is one element
    shorter. *)
Theorem removeAt_decrements_size (T : Type) (l : LinkedList.t T) (i : Z) :
  LinkedList.counted l →
  0 ≤ i < LinkedList.size l →
  LinkedList.size (LinkedList.removeAt i l).2 = LinkedList.size l - 1
  ∧ Array.length (LinkedList.toArray (LinkedList.removeAt i l).2)
    = Array.length (LinkedList.toArray l) - 1.
Proof.
  intros Hl Hin.
  pose proof (counted_removeAt i l Hl) as Hl'.
  destruct (removeAt_present i l Hl Hin) as (x & l' & Hrem & _ & _ & Hsize).
  rewrite Hrem in *. cbn [snd] in *.
  unfold LinkedList.counted in *. split; [exact Hsize|lia].
Qed.

Lemma removeAt_decrements_size_witness :
  LinkedList.size (LinkedList.removeAt 1 (LinkedList.fromArray [1; 2; 3])).2
  = 2.
Proof.
  apply (removeAt_decrements_size Z (LinkedList.fromArray [1; 2; 3]) 1).
  - reflexivity.
  - cbn. lia.
Defined.

(** X9. With integers as index arguments, no sequence of calls of the
    public operations on a new list reads a field of [undefined]: the
    sequence runs to its end, or it stops at an [insertAt] that throws its
    [RangeError]. (An index [NaN] is another matter: see
    [LinkedList.removeAt_number].) *)
Theorem public_calls_never_TypeError
    (T : Type) (ops : list (LinkedList.op T)) :
  (LinkedList.run ops LinkedList.new).1 = Return ()
  ∨ (LinkedList.run ops LinkedList.new).1
    = Throw (RangeError "index out of bounds").
Proof.
  pose proof (run_throws ops LinkedList.new) as Hthrow.
  destruct (LinkedList.run ops LinkedList.new).1 as [[]|e]; [now left|].
  right. f_equal. apply Hthrow; [apply counted_new|reflexivity].
Qed.

(** X10. [fromArray(arr).size()] is [arr.length]. *)
Theorem fromArray_size (T : Type) (arr : list T) :
  LinkedList.size (LinkedList.fromArray arr) = Array.length arr.
Proof.
  unfold LinkedList.fromArray. rewrite fold_add_size. reflexivity.
Qed.

(** ** [Repository] *)

Section RepositoryFacts.
Context {ID T : Type} `{Countable ID} `{Repository.HasId ID T}.

Implicit Types (r : Repository.t ID T) (item : T) (i : ID).

Lemma save_all_snoc (items : list T) item r :
  Repository.save_all (items ++ [item]) r
  = Repository.save item (Repository.save_all items r).
Proof. unfold Repository.save_all. now rewrite fold_left_app. Qed.

Lemma get_save item r i :
  Repository.get i (Repository.save item r)
  = if decide (i = Repository.id item) then Some item else Repository.get i r.
Proof.
  unfold Repository.get, Repository.save. cbn [Repository.store].
  destruct (decide (i = Repository.id item)) as [->|Hne].
  - apply lookup_insert_eq.
  - now apply lookup_insert_ne.
Qed.

End RepositoryFacts.

(** X11. Round trip: [get(item.id)] after [save(item)] returns [item], and
    the [save] changes what [get] returns for no other id. *)
Theorem Repository_save_then_get
    (ID T : Type) `{Countable ID} `{Repository.HasId ID T}
    (item : T) (r : Repository.t ID T) :
  Repository.get (Repository.id item) (Repository.save item r) = Some item
  ∧ (∀ i : ID,
       i ≠ Repository.id item →
       Repository.get i (Repository.save item r) = Repository.get i r).
Proof.
  split.
  - rewrite get_save. now destruct (decide _).
  - intros i Hne. rewrite get_save. now destruct (decide _).
Qed.

Lemma Repository_save_then_get_witness :
  let nia := mkUserWithId "u1" "Nia" in
  let repo := Repository.save nia Repository.new in
  Repository.get "u1"%string repo = Some nia
  ∧ Repository.get "u2"%string repo = None.
Proof.
  intros nia repo. split.
  - exact (proj1 (Repository_save_then_get string UserWithId nia
                    Repository.new)).
  - refine (proj2 (Repository_save_then_get string UserWithId nia
                     Repository.new) "u2"%string _).
    vm_compute. discriminate.
Defined.

(** X12. The last save wins: after the saves of [items] in order, [get(i)]
    returns the last of the items saved with the id [i]; when no item has
    that id it returns what it returned before the saves, [undefined] on a
    new repository. *)
Theorem Repository_get_last_saved
    (ID T : Type) `{Countable ID} `{Repository.HasId ID T}
    (items : list T) (r : Repository.t ID T) (i : ID) :
  Repository.get i (Repository.save_all items r)
  = match last (filter (λ item, Repository.id item = i) items) with
    | Some item => Some item
    | None => Repository.get i r
    end.
Proof.
  induction items as [|item items IH] using rev_ind; [reflexivity|].
  rewrite save_all_snoc, get_save, filter_app, IH.
  destruct (decide (i = Repository.id item)) as [->|Hne].
  - rewrite filter_cons_True by reflexivity. cbn [filter list_filter].
    now rewrite last_snoc.
  - rewrite filter_cons_False by congruence. cbn [filter list_filter].
    now rewrite app_nil_r.
Qed.

(** ** [TypedEventEmitter] *)

Section SetFacts.
Context {F : Type} `{EqDecision F}.

Implicit Types (cb : F) (set cbs : list F).

Lemma add_new cb set : cb ∉ set → JsSet.add cb set = set ++ [cb].
Proof.
  intros Hnew. unfold JsSet.add, JsSet.has.
  now rewrite bool_decide_eq_false_2.
Qed.

Lemma add_old cb set : cb ∈ set → JsSet.add cb set = set.
Proof.
  intros Hold. unfold JsSet.add, JsSet.has.
  now rewrite bool_decide_eq_true_2.
Qed.


Lemma delete_absent cb set : cb ∉ set → JsSet.delete cb set = set.
Proof.
  intros Hnew. unfold JsSet.delete.
  induction set as [|x set IH]; [reflexivity|].
  rewrite filter_cons_True by set_solver. f_equal. apply IH. set_solver.
Qed.

Lemma delete_add_new cb set :
  cb ∉ set → JsSet.delete cb (JsSet.add cb set) = set.
Proof.
  intros Hnew. rewrite add_new by exact Hnew. unfold JsSet.delete.
  rewrite filter_app, filter_cons_False, app_nil_r by (intros Hne; now apply Hne).
  now apply delete_absent.
Qed.

Lemma add_all_distinct cbs set :
  NoDup (set ++ cbs) →
  fold_left (λ set' cb, JsSet.add cb set') cbs set = set ++ cbs.
Proof.
  revert set. induction cbs as [|cb cbs IH]; intros set Hnd; cbn [fold_left].
  - now rewrite app_nil_r.
  - assert (Hnew : cb ∉ set).
    { apply NoDup_app in Hnd as (_ & Hdisj & _).
      intros Hin. apply (Hdisj cb Hin). left. }
    rewrite add_new by exact Hnew.
    rewrite IH; rewrite <- app_assoc; [reflexivity|exact Hnd].
Qed.

Lemma add_NoDup cb set : NoDup set → NoDup (JsSet.add cb set).
Proof.
  intros Hnd. destruct (decide (cb ∈ set)) as [Hold|Hnew].
  - now rewrite add_old.
  - rewrite add_new by exact Hnew. apply NoDup_app. repeat split; auto.
    + intros x Hx [->|Hin]%elem_of_cons; [done|]. now apply elem_of_nil in Hin.
    + apply NoDup_singleton.
Qed.

Lemma delete_NoDup cb set : NoDup set → NoDup (JsSet.delete cb set).
Proof. apply NoDup_filter. Qed.


End SetFacts.

Section EmitterFacts.
Context {K F : Type} `{Countable K} `{EqDecision F}.

Implicit Types (em : TypedEventEmitter.t K F) (event : K) (cb : F).

(** The listeners [emit(event)] calls, in the order of the calls. *)
Lemma emit_listeners {A S : Type} (invoke : F → A → S → S)
    event (args : A) em (s : S) :
  TypedEventEmitter.emit invoke event args em s
  = fold_left (λ s' cb, invoke cb args s')
      (default [] (TypedEventEmitter.listeners em !! event)) s.
Proof.
  unfold TypedEventEmitter.emit.
  now destruct (TypedEventEmitter.listeners em !! event).
Qed.

Lemma listeners_on event cb em event' :
  default [] (TypedEventEmitter.listeners (TypedEventEmitter.on event cb em)
              !! event')
  = if decide (event' = event)
    then JsSet.add cb (default [] (TypedEventEmitter.listeners em !! event))
    else default [] (TypedEventEmitter.listeners em !! event').
Proof.
  unfold TypedEventEmitter.on. cbn [TypedEventEmitter.listeners].
  destruct (decide (event' = event)) as [->|Hne].
  - now rewrite lookup_insert_eq.
  - now rewrite lookup_insert_ne.
Qed.

Lemma listeners_off event cb em event' :
  default [] (TypedEventEmitter.listeners (TypedEventEmitter.off event cb em)
              !! event')
  = if decide (event' = event)
    then JsSet.delete cb (default [] (TypedEventEmitter.listeners em !! event))
    else default [] (TypedEventEmitter.listeners em !! event').
Proof.
  unfold TypedEventEmitter.off.
  destruct (TypedEventEmitter.listeners em !! event) as [set|] eqn:Hset;
    cbn [TypedEventEmitter.listeners].
  - destruct (decide (event' = event)) as [->|Hne].
    + now rewrite lookup_insert_eq.
    + now rewrite lookup_insert_ne.
  - destruct (decide (event' = event)) as [->|Hne]; [|reflexivity].
    now rewrite Hset.
Qed.

Lemma listeners_on_all event (cbs : list F) em event' :
  default []
    (TypedEventEmitter.listeners (TypedEventEmitter.on_all event cbs em)
     !! event')
  = if decide (event' = event)
    then fold_left (λ set cb, JsSet.add cb set) cbs
           (default [] (TypedEventEmitter.listeners em !! event))
    else default [] (TypedEventEmitter.listeners em !! event').
Proof.
  unfold TypedEventEmitter.on_all. revert em.
  induction cbs as [|cb cbs IH]; intros em; cbn [fold_left].
  - now destruct (decide _) as [->|].
  - rewrite IH, !listeners_on.
    destruct (decide (event' = event)) as [->|Hne]; [|reflexivity].
    now destruct (decide (event = event)).
Qed.


Lemma sets_distinct_listeners em event :
  TypedEventEmitter.sets_distinct em →
  NoDup (default [] (TypedEventEmitter.listeners em !! event)).
Proof.
  intros Hem.
  destruct (TypedEventEmitter.listeners em !! event) as [set|] eqn:Hset.
  - exact (Hem event set Hset).
  - apply NoDup_nil_2.
Qed.

Lemma sets_distinct_on event cb em :
  TypedEventEmitter.sets_distinct em →
  TypedEventEmitter.sets_distinct (TypedEventEmitter.on event cb em).
Proof.
  intros Hem event' set. unfold TypedEventEmitter.on.
  cbn [TypedEventEmitter.listeners].
  destruct (decide (event' = event)) as [->|Hne].
  - rewrite lookup_insert_eq. intros [= <-].
    now apply add_NoDup, sets_distinct_listeners.
  - rewrite lookup_insert_ne by done. apply Hem.
Qed.

Lemma sets_distinct_off event cb em :
  TypedEventEmitter.sets_distinct em →
  TypedEventEmitter.sets_distinct (TypedEventEmitter.off event cb em).
Proof.
  intros Hem event' set'. unfold TypedEventEmitter.off.
  destruct (TypedEventEmitter.listeners em !! event) as [set|] eqn:Hset;
    [|apply Hem].
  cbn [TypedEventEmitter.listeners].
  destruct (decide (event' = event)) as [->|Hne].
  - rewrite lookup_insert_eq. intros [= <-].
    apply delete_NoDup. exact (Hem event set Hset).
  - rewrite lookup_insert_ne by done. apply Hem.
Qed.


End EmitterFacts.



(** X14. [off] undoes [on]: when [cb] is not yet a listener of [event],
    [on(event, cb)] followed by [off(event, cb)] leaves an emitter whose
    [emit] does, for every event, what it did before. *)
Theorem off_undoes_on
    (K F A S : Type) `{Countable K} `{EqDecision F}
    (invoke : F → A → S → S)
    (event : K) (cb : F) (em : TypedEventEmitter.t K F) :
  cb ∉ default [] (TypedEventEmitter.listeners em !! event) →
  ∀ (event' : K) (args : A) (s : S),
    TypedEventEmitter.emit invoke event' args
      (TypedEventEmitter.off event cb (TypedEventEmitter.on event cb em)) s
    = TypedEventEmitter.emit invoke event' args em s.
Proof.
  intros Hnew event' args s.
  rewrite !emit_listeners, listeners_off, !listeners_on.
  destruct (decide (event' = event)) as [->|Hne]; [|reflexivity].
  destruct (decide (event = event)); [|done].
  now rewrite delete_add_new.
Qed.

Lemma off_undoes_on_witness :
  TypedEventEmitter.emit (λ (cb : nat) (msg : string) log, log ++ [(cb, msg)])
    "data"%string "hello"%string
    (TypedEventEmitter.off "data"%string 2%nat
       (TypedEventEmitter.on "data"%string 2%nat
          (TypedEventEmitter.on "data"%string 1%nat TypedEventEmitter.new)))
    []
  = [(1%nat, "hello"%string)].
Proof.
  rewrite (off_undoes_on string nat string (list (nat * string))
             (λ cb msg log, log ++ [(cb, msg)]) "data"%string 2%nat
             (TypedEventEmitter.on "data"%string 1%nat TypedEventEmitter.new)).
  - vm_compute. reflexivity.
  - vm_compute. intros Hin. inversion Hin as [|? ? ? Hnil]; inversion Hnil.
Defined.

(** X15. [emit(event, args)] calls the listeners of [event] in the order
    they were registered, each once, and no listener of another event:
    after [on(event, cb)] for the distinct callbacks [cbs] on a new emitter,
    it calls [cbs] from first to last, and [emit] of another event calls
    nothing. *)
Theorem emit_in_registration_order
    (K F A S : Type) `{Countable K} `{EqDecision F}
    (invoke : F → A → S → S)
    (event : K) (cbs : list F) (args : A) (s : S) :
  NoDup cbs →
  TypedEventEmitter.emit invoke event args
    (TypedEventEmitter.on_all event cbs TypedEventEmitter.new) s
  = fold_left (λ s' cb, invoke cb args s') cbs s
  ∧ (∀ event' : K,
       event' ≠ event →
       TypedEventEmitter.emit invoke event' args
         (TypedEventEmitter.on_all event cbs TypedEventEmitter.new) s
       = s).
Proof.
  intros Hnd. split.
  - rewrite emit_listeners, listeners_on_all.
    destruct (decide (event = event)); [|done].
    cbn [TypedEventEmitter.new TypedEventEmitter.listeners].
    rewrite lookup_empty. cbn [default].
    now rewrite add_all_distinct.
  - intros event' Hne. rewrite emit_listeners, listeners_on_all.
    destruct (decide (event' = event)); [done|].
    cbn [TypedEventEmitter.new TypedEventEmitter.listeners].
    now rewrite lookup_empty.
Qed.

Lemma emit_in_registration_order_witness :
  TypedEventEmitter.emit (λ (cb : nat) (msg : string) log, log ++ [(cb, msg)])
    "data"%string "hello"%string
    (TypedEventEmitter.on_all "data"%string [3; 1; 2]%nat
       TypedEventEmitter.new)
    []
  = [(3%nat, "hello"%string); (1%nat, "hello"%string);
     (2%nat, "hello"%string)].
Proof.
  apply (emit_in_registration_order string nat string (list (nat * string))
           (λ cb msg log, log ++ [(cb, msg)]) "data"%string [3; 1; 2]%nat
           "hello"%string []).
  exact (bool_decide_unpack (NoDup [3; 1; 2]%nat) I).
Defined.

